(** * kyanite: the interactive TCP client script (script.py)

    The script opens one socket to localhost:8080 and then forwards every
    line typed by the operator to the peer until the operator types the exit
    keyword, a send fails, or the process is interrupted.

    The embedding is a shallow one.  Every call into the outside world
    (socket.socket, sock.connect, input, sendall) gets its answer from an
    explicit environment value; what the program does to the outside world
    (prompts, printed lines, bytes handed to sendall, close calls) is
    collected in a log.  Python exceptions are values of type [exn], and the
    try/except blocks of the script are the [try_except] combinator of a
    small logging-and-exception monad. *)

From Stdlib Require Import List ZArith Lia Bool String Ascii.
Import ListNotations.
Local Open Scope Z_scope.

(** ** Text and bytes *)

(** A Python [str] is a sequence of Unicode code points; a [bytes] object
    a sequence of octets. *)
Definition str := list Z.
Definition bytes := list Z.

(** Source literals are pure ASCII, so they are written as Rocq strings and
    read code point by code point. *)
Definition lit (s : string) : str :=
  map (fun a => Z.of_N (N_of_ascii a)) (list_ascii_of_string s).

Definition str_eqb (a b : str) : bool :=
  if list_eq_dec Z.eq_dec a b then true else false.

(** [str.lower()].  On the code points A-Z this is the shift to a-z.  The
    only use the script makes of it is the comparison with the literal
    "exit"; no code point outside A-Z has a lower-case mapping that consists
    of the letters e, x, i or t, so leaving the other code points as they are
    keeps that comparison exact. *)
Definition lower_char (c : Z) : Z :=
  if (65 <=? c) && (c <=? 90) then c + 32 else c.

Definition lower (s : str) : str := map lower_char s.

(** [str.encode("utf-8")] in the default strict mode: one to four octets per
    code point; a surrogate (U+D800..U+DFFF) or a value beyond U+10FFFF has
    no encoding and Python raises UnicodeEncodeError. *)
Definition utf8_char (c : Z) : option bytes :=
  if c <? 0 then None
  else if c <? 128 then Some [c]
  else if c <? 2048 then
    Some [Z.lor 192 (Z.shiftr c 6); Z.lor 128 (Z.land c 63)]
  else if c <? 65536 then
    if (55296 <=? c) && (c <=? 57343) then None
    else Some [Z.lor 224 (Z.shiftr c 12);
               Z.lor 128 (Z.land (Z.shiftr c 6) 63);
               Z.lor 128 (Z.land c 63)]
  else if c <? 1114112 then
    Some [Z.lor 240 (Z.shiftr c 18);
          Z.lor 128 (Z.land (Z.shiftr c 12) 63);
          Z.lor 128 (Z.land (Z.shiftr c 6) 63);
          Z.lor 128 (Z.land c 63)]
  else None.

Fixpoint encode_utf8 (s : str) : option bytes :=
  match s with
  | [] => Some []
  | c :: rest =>
      match utf8_char c, encode_utf8 rest with
      | Some b, Some bs => Some (b ++ bs)
      | _, _ => None
      end
  end.

(** UTF-8 read back, as a peer would read the octets it receives: the
    strict decoder, which refuses stray continuation octets, overlong forms,
    surrogates and values beyond U+10FFFF.  It is the yardstick for
    [encode_utf8]. *)
Definition continuation (b : Z) : option Z :=
  if (128 <=? b) && (b <? 192) then Some (b - 128) else None.

(** A decoded value is kept when it is a scalar value that needed the
    width it came in. *)
Definition scalar (lo c : Z) (s : option str) : option str :=
  match s with
  | Some s' =>
      if (lo <=? c) && (c <? 1114112) &&
         negb ((55296 <=? c) && (c <=? 57343))
      then Some (c :: s') else None
  | None => None
  end.

Fixpoint decode_utf8 (bs : bytes) : option str :=
  match bs with
  | [] => Some []
  | b0 :: r0 =>
      if (0 <=? b0) && (b0 <? 128) then scalar 0 b0 (decode_utf8 r0)
      else if (192 <=? b0) && (b0 <? 224) then
        match r0 with
        | b1 :: r1 =>
            match continuation b1 with
            | Some x1 => scalar 128 ((b0 - 192) * 64 + x1) (decode_utf8 r1)
            | None => None
            end
        | _ => None
        end
      else if (224 <=? b0) && (b0 <? 240) then
        match r0 with
        | b1 :: b2 :: r2 =>
            match continuation b1, continuation b2 with
            | Some x1, Some x2 =>
                scalar 2048 ((b0 - 224) * 4096 + x1 * 64 + x2)
                  (decode_utf8 r2)
            | _, _ => None
            end
        | _ => None
        end
      else if (240 <=? b0) && (b0 <? 248) then
        match r0 with
        | b1 :: b2 :: b3 :: r3 =>
            match continuation b1, continuation b2, continuation b3 with
            | Some x1, Some x2, Some x3 =>
                scalar 65536
                  ((b0 - 240) * 262144 + x1 * 4096 + x2 * 64 + x3)
                  (decode_utf8 r3)
            | _, _, _ => None
            end
        | _ => None
        end
      else None
  end.

(** [str(n)] for a Python int, as used by the f-string field [{port}]. *)
Fixpoint digits (fuel : nat) (n : Z) (acc : str) : str :=
  match fuel with
  | O => acc
  | S fuel' =>
      let acc' := (48 + n mod 10) :: acc in
      if n <? 10 then acc' else digits fuel' (n / 10) acc'
  end.

Definition str_of_int (n : Z) : str :=
  if n <? 0 then 45 :: digits (S (Z.to_nat (Z.log2 (- n)))) (- n) []
  else digits (S (Z.to_nat (Z.log2 n))) n [].

(** Decimal numerals read back: the yardstick for [str_of_int]. *)
Definition is_digit (c : Z) : bool := (48 <=? c) && (c <=? 57).

Definition int_of_digits (s : str) : Z :=
  fold_left (fun acc d => 10 * acc + (d - 48)) s 0.

(** ** Exceptions, effects and the monad of the script *)

(** The exception classes the script tells apart.  [socket.error] is
    Python's OSError, so [SocketError] stands for it and all its subclasses
    (ConnectionRefusedError, BrokenPipeError, socket.gaierror, ...), and
    carries the text [str(e)].  [OtherError] is any class that neither
    handler names (EOFError, UnicodeEncodeError, ...). *)
Inductive exn : Type :=
  | SocketError (text : str)
  | KeyboardInterrupt
  | OtherError (name : str).

(** What a call does: it returns a value or raises. *)
Inductive reply (A : Type) : Type :=
  | Return (a : A)
  | Raise (e : exn).
Arguments Return {A} a.
Arguments Raise {A} e.

(** The socket object the script holds. *)
Record sock : Type := Sock { peer_host : str; peer_port : Z }.

(** What the program does to the outside world, in order. *)
Inductive effect : Type :=
  | NewSocket                          (* socket.socket(AF_INET, SOCK_STREAM) *)
  | Connect (host : str) (port : Z)    (* sock.connect((host, port)) *)
  | Print (line : str)                 (* print(line) *)
  | Prompt (text : str)                (* the prompt written by input(text) *)
  | Sendall (connection : sock) (payload : bytes)
                                       (* connection.sendall(payload) *)
  | Close (connection : sock).         (* connection.close() *)

Definition log := list effect.

(** A computation: the effects it performed and how it ended. *)
Definition M (A : Type) : Type := (log * reply A)%type.

Definition ret {A} (a : A) : M A := ([], Return a).

Definition raise {A} (e : exn) : M A := ([], Raise e).

Definition bind {A B} (m : M A) (f : A -> M B) : M B :=
  match m with
  | (l, Return a) => let (l', r) := f a in (l ++ l', r)
  | (l, Raise e) => (l, Raise e)
  end.

(** A call into the outside world: the effect is logged, the environment's
    reply is the result. *)
Definition call {A} (e : effect) (r : reply A) : M A := ([e], r).

Definition print (line : str) : M unit := call (Print line) (Return tt).

(** [try: body except <classes picked by handler>: ...]: a handler that
    answers [None] does not match the exception, which then propagates. *)
Definition try_except {A} (body : M A) (handler : exn -> option (M A)) : M A :=
  match body with
  | (l, Return a) => (l, Return a)
  | (l, Raise e) =>
      match handler e with
      | Some h => let (l', r) := h in (l ++ l', r)
      | None => (l, Raise e)
      end
  end.

Declare Scope script_scope.
Delimit Scope script_scope with script.
Notation "x <- m ;; k" := (bind m (fun x => k))
  (at level 61, m at next level, right associativity) : script_scope.
Notation "m ;; k" := (bind m (fun _ => k))
  (at level 61, right associativity) : script_scope.
Local Open Scope script_scope.

(** ** connect_to_server *)

(** The environment of the connect phase: what [socket.socket] and
    [sock.connect] do when called. *)
Record connect_env : Type := ConnectEnv {
  socket_reply : reply unit;
  connect_reply : reply unit
}.

Definition default_host : str := lit "localhost".
Definition default_port : Z := 8080.

(** [def connect_to_server(host="localhost", port=8080)]: an argument left
    out is [None] here. *)
Definition connect_to_server (host : option str) (port : option Z)
    (env : connect_env) : M (option sock) :=
  let host := match host with Some h => h | None => default_host end in
  let port := match port with Some p => p | None => default_port end in
  try_except
    (call NewSocket (socket_reply env) ;;
     call (Connect host port) (connect_reply env) ;;
     print (lit "Connected to " ++ host ++ lit ":" ++ str_of_int port) ;;
     ret (Some (Sock host port)))
    (fun e =>
       match e with
       | SocketError text =>
           Some (print (lit "Error connecting to server: " ++ text) ;;
                 ret None)
       | _ => None
       end).

(** ** The interactive loop *)

(** The environment of one pass through the loop body: what [input] does,
    and what [sendall] does if the pass gets as far as calling it. *)
Record turn : Type := Turn {
  stdin_reply : reply str;
  sendall_reply : reply unit
}.

(** Where the program stands.  [AwaitingInput] is the only state that is
    not final: the prompt is on the screen and [input] has not returned.
    The three [Closed] states are the three [break]s of the loop;
    [NotConnected] is the end of a run whose connection attempt failed;
    [Unhandled e] is the death of the process by an exception that no
    handler caught. *)
Inductive state : Type :=
  | AwaitingInput
  | ClosedNormal
  | ClosedError
  | ClosedInterrupted
  | NotConnected
  | Unhandled (e : exn).

(** How one pass through the body of [while True] ends. *)
Inductive ctl : Type :=
  | Continue
  | Break (s : state).

Definition prompt_text : str :=
  lit "Enter message to send (or 'exit' to quit): ".
Definition exit_notice : str := lit "Exiting...".
Definition send_error_prefix : str := lit "Error receiving data: ".
Definition interrupt_notice : str :=
  lit "Interrupted by user, closing connection.".

(** [msg.encode("utf-8")] as a computation. *)
Definition encode (msg : str) : M bytes :=
  match encode_utf8 msg with
  | Some payload => ret payload
  | None => raise (OtherError (lit "UnicodeEncodeError"))
  end.

(** The body of the [while True] loop, try block and both handlers. *)
Definition loop_body (connection : sock) (t : turn) : M ctl :=
  try_except
    (msg <- call (Prompt prompt_text) (stdin_reply t) ;;
     if str_eqb (lower msg) (lit "exit") then
       print exit_notice ;;
       call (Close connection) (Return tt) ;;
       ret (Break ClosedNormal)
     else
       payload <- encode msg ;;
       call (Sendall connection payload) (sendall_reply t) ;;
       ret Continue)
    (fun e =>
       match e with
       | SocketError text =>
           Some (print (send_error_prefix ++ text) ;;
                 ret (Break ClosedError))
       | KeyboardInterrupt =>
           Some (print interrupt_notice ;;
                 ret (Break ClosedInterrupted))
       | OtherError _ => None
       end).

(** [while True: ...] run against the turns the environment supplies.  When
    the turns are used up the program has written its prompt and is waiting
    in [input]. *)
Fixpoint run_loop (connection : sock) (script : list turn) : log * state :=
  match script with
  | [] => ([Prompt prompt_text], AwaitingInput)
  | t :: rest =>
      match loop_body connection t with
      | (l, Return Continue) =>
          let (l', s) := run_loop connection rest in (l ++ l', s)
      | (l, Return (Break s)) => (l, s)
      | (l, Raise e) => (l, Unhandled e)
      end
  end.

(** The module body: [connection = connect_to_server()] and the guarded
    loop. *)
Definition main (env : connect_env) (script : list turn) : log * state :=
  match connect_to_server None None env with
  | (l, Raise e) => (l, Unhandled e)
  | (l, Return None) => (l, NotConnected)
  | (l, Return (Some connection)) =>
      let (l', s) := run_loop connection script in (l ++ l', s)
  end.

(** ** Observations on logs *)

Definition is_close (e : effect) : bool :=
  match e with Close _ => true | _ => false end.
Definition is_new_socket (e : effect) : bool :=
  match e with NewSocket => true | _ => false end.
Definition is_prompt (e : effect) : bool :=
  match e with Prompt _ => true | _ => false end.

Definition count (p : effect -> bool) (l : log) : nat :=
  List.length (filter p l).

(** The payloads handed to [sendall], in order. *)
Fixpoint sent (l : log) : list bytes :=
  match l with
  | [] => []
  | Sendall _ payload :: l' => payload :: sent l'
  | _ :: l' => sent l'
  end.

(** The lines printed, in order. *)
Fixpoint printed (l : log) : list str :=
  match l with
  | [] => []
  | Print line :: l' => line :: printed l'
  | _ :: l' => printed l'
  end.

Fixpoint prefixb (needle hay : str) : bool :=
  match needle, hay with
  | [], _ => true
  | _ :: _, [] => false
  | a :: needle', b :: hay' => (a =? b) && prefixb needle' hay'
  end.

(** [needle in hay] for strings. *)
Fixpoint containsb (needle hay : str) : bool :=
  prefixb needle hay ||
  match hay with
  | [] => false
  | _ :: hay' => containsb needle hay'
  end.

(** [str.strip()]: Python's white space code points. *)
Definition is_space (c : Z) : bool :=
  ((9 <=? c) && (c <=? 13)) || ((28 <=? c) && (c <=? 32)) ||
  (c =? 133) || (c =? 160) || (c =? 5760) ||
  ((8192 <=? c) && (c <=? 8202)) || (c =? 8232) || (c =? 8233) ||
  (c =? 8239) || (c =? 8287) || (c =? 12288).

Fixpoint lstrip (s : str) : str :=
  match s with
  | c :: rest => if is_space c then lstrip rest else s
  | [] => []
  end.

Definition strip (s : str) : str := rev (lstrip (rev (lstrip s))).

(** The exit test as the description words it: trimmed, then lower-cased,
    equal to "exit". *)
Definition trimmed_is_exit (msg : str) : bool :=
  str_eqb (lower (strip msg)) (lit "exit").

(** The exit test the script performs. *)
Definition is_exit (msg : str) : bool := str_eqb (lower msg) (lit "exit").

(** ** Kinds of turn *)

(** The payload of a turn in which the line is forwarded: [input] returns a
    line that is not the exit keyword and has an encoding, and [sendall]
    returns. *)
Definition forwards (t : turn) : option bytes :=
  match stdin_reply t, sendall_reply t with
  | Return msg, Return _ => if is_exit msg then None else encode_utf8 msg
  | _, _ => None
  end.

Definition forwarded (t : turn) : bool :=
  match forwards t with Some _ => true | None => false end.

(** What a run of forwarded turns leaves in the log. *)
Definition forwarding_log (connection : sock) (turns : list turn) : log :=
  flat_map (fun t => match forwards t with
                     | Some payload =>
                         [Prompt prompt_text; Sendall connection payload]
                     | None => []
                     end) turns.

(** An interrupt that arrives while the program is blocked in [input] or in
    [sendall]. *)
Definition interrupted (t : turn) : bool :=
  match stdin_reply t, sendall_reply t with
  | Raise KeyboardInterrupt, _ => true
  | Return msg, Raise KeyboardInterrupt =>
      negb (is_exit msg) &&
      match encode_utf8 msg with Some _ => true | None => false end
  | _, _ => false
  end.

(** The line read is the exit keyword. *)
Definition exit_keyword (t : turn) : bool :=
  match stdin_reply t with
  | Return msg => is_exit msg
  | Raise _ => false
  end.

(** The line read is sent and [sendall] raises a socket error. *)
Definition transmission_error (t : turn) : option str :=
  match stdin_reply t, sendall_reply t with
  | Return msg, Raise (SocketError text) =>
      if is_exit msg then None
      else match encode_utf8 msg with Some _ => Some text | None => None end
  | _, _ => None
  end.

Definition ends_loop (t : turn) : bool :=
  exit_keyword t ||
  match transmission_error t with Some _ => true | None => false end ||
  interrupted t.

(** ** Kinds of connect phase *)

(** The exception, if any, that the connect phase meets: raised by the
    creation of the socket or, when that returns, by the connect call. *)
Definition connect_raises (env : connect_env) : option exn :=
  match socket_reply env with
  | Raise e => Some e
  | Return _ =>
      match connect_reply env with
      | Raise e => Some e
      | Return _ => None
      end
  end.

(** The calls made up to that point. *)
Definition attempt_log (host : str) (port : Z) (env : connect_env) : log :=
  match socket_reply env with
  | Raise _ => [NewSocket]
  | Return _ => [NewSocket; Connect host port]
  end.

Definition host_or_default (host : option str) : str :=
  match host with Some h => h | None => lit "localhost" end.

Definition port_or_default (port : option Z) : Z :=
  match port with Some p => p | None => 8080 end.

(** The number of close calls a run that ends in state [s] has made. *)
Definition closes_expected (s : state) : nat :=
  match s with ClosedNormal => 1%nat | _ => 0%nat end.

(** ** Further observations *)

(** The sixteen spellings of the exit keyword: e, x, i, t, each in either
    case. *)
Definition exit_spelling (msg : str) : bool :=
  match msg with
  | [a; b; c; d] =>
      ((a =? 69) || (a =? 101)) && ((b =? 88) || (b =? 120)) &&
      ((c =? 73) || (c =? 105)) && ((d =? 84) || (d =? 116))
  | _ => false
  end.

(** A Unicode scalar value: a code point that is not a surrogate. *)
Definition is_scalar (c : Z) : bool :=
  (0 <=? c) && (c <? 1114112) && negb ((55296 <=? c) && (c <=? 57343)).

Definition is_octet (b : Z) : bool := (0 <=? b) && (b <? 256).

Definition is_connect (e : effect) : bool :=
  match e with Connect _ _ => true | _ => false end.

(** A session in which the operator types the given lines and every send
    succeeds. *)
Definition typed (msgs : list str) : list turn :=
  map (fun m => Turn (Return m) (Return tt)) msgs.

(** The lines that [input] returns in the course of a script. *)
Definition lines_read (script : list turn) : list str :=
  flat_map (fun t => match stdin_reply t with
                     | Return msg => [msg]
                     | Raise _ => []
                     end) script.

(** The name of an exception of a class that neither handler of the loop
    names, raised by [input] or by a [sendall] that is reached. *)
Definition escapes (t : turn) : option str :=
  match stdin_reply t, sendall_reply t with
  | Raise (OtherError name), _ => Some name
  | Return msg, Raise (OtherError name) =>
      if is_exit msg then None
      else match encode_utf8 msg with Some _ => Some name | None => None end
  | _, _ => None
  end.

(** An effect that concerns a peer concerns the given one. *)
Definition targets (host : str) (port : Z) (e : effect) : Prop :=
  match e with
  | Connect h p => h = host /\ p = port
  | Sendall c _ => c = Sock host port
  | Close c => c = Sock host port
  | _ => True
  end.

(** ** Sample environments *)

Definition line (s : string) : turn := Turn (Return (lit s)) (Return tt).
Definition reachable : connect_env := ConnectEnv (Return tt) (Return tt).
Definition refused : connect_env :=
  ConnectEnv (Return tt)
    (Raise (SocketError (lit "[Errno 111] Connection refused"))).
Definition conn0 : sock := Sock default_host default_port.

(** ** Facts about text *)

Lemma str_eqb_eq (a b : str) : str_eqb a b = true <-> a = b.
Proof.
  unfold str_eqb. destruct (list_eq_dec Z.eq_dec a b); split; congruence.
Qed.

Lemma is_exit_true (msg : str) : is_exit msg = true <-> lower msg = lit "exit".
Proof. apply str_eqb_eq. Qed.

Lemma is_exit_false (msg : str) :
  is_exit msg = false <-> lower msg <> lit "exit".
Proof.
  rewrite <- is_exit_true. destruct (is_exit msg); split; congruence.
Qed.

Lemma prefixb_app (needle rest : str) : prefixb needle (needle ++ rest) = true.
Proof.
  induction needle as [|a needle IH]; simpl; [reflexivity|].
  now rewrite Z.eqb_refl, IH.
Qed.

Lemma containsb_app (needle before after : str) :
  containsb needle (before ++ needle ++ after) = true.
Proof.
  induction before as [|b before IH]; simpl.
  - assert (H : prefixb needle (needle ++ after) = true)
      by apply prefixb_app.
    destruct (needle ++ after); simpl; now rewrite H.
  - rewrite IH. apply orb_true_r.
Qed.

Lemma containsb_suffix (needle before : str) :
  containsb needle (before ++ needle) = true.
Proof.
  rewrite <- (app_nil_r needle) at 2. apply containsb_app.
Qed.

(** A character of "exit", in either case, is not white space, so the
    script's test accepts nothing that the trimmed test rejects. *)
Lemma lower_exit_no_space (msg : str) :
  lower msg = lit "exit" -> forallb (fun c => negb (is_space c)) msg = true.
Proof.
  unfold lower, lit; simpl.
  destruct msg as [|a [|b [|c [|d [|? ?]]]]]; simpl; try discriminate.
  intros H; injection H as Ha Hb Hc Hd.
  assert (Hs : forall x y, lower_char x = y -> 100 < y < 125 ->
                     is_space x = false).
  { intros x y Hx Hy.
    assert (Hr : 65 <= x < 125).
    { unfold lower_char in Hx.
      destruct ((65 <=? x) && (x <=? 90)) eqn:E; [|lia].
      apply andb_true_iff in E. destruct E as [E1 E2].
      apply Z.leb_le in E1. apply Z.leb_le in E2. lia. }
    unfold is_space.
    repeat match goal with
           | |- context [?u <=? ?v] =>
               first [ rewrite (proj2 (Z.leb_le u v)) by lia
                     | rewrite (proj2 (Z.leb_gt u v)) by lia ]
           | |- context [?u =? ?v] =>
               rewrite (proj2 (Z.eqb_neq u v)) by lia
           end.
    reflexivity. }
  rewrite (Hs _ _ Ha), (Hs _ _ Hb), (Hs _ _ Hc), (Hs _ _ Hd) by lia.
  reflexivity.
Qed.

Lemma lstrip_no_space (s : str) :
  forallb (fun c => negb (is_space c)) s = true -> lstrip s = s.
Proof.
  destruct s as [|c s]; simpl; [reflexivity|].
  destruct (is_space c); simpl; [discriminate|reflexivity].
Qed.

Lemma strip_no_space (s : str) :
  forallb (fun c => negb (is_space c)) s = true -> strip s = s.
Proof.
  intros H. unfold strip. rewrite (lstrip_no_space s H).
  rewrite lstrip_no_space, rev_involutive; [reflexivity|].
  rewrite forallb_forall in *. intros x Hx. apply H. now apply in_rev.
Qed.

Lemma is_exit_trimmed (msg : str) :
  is_exit msg = true -> trimmed_is_exit msg = true.
Proof.
  intros H. unfold trimmed_is_exit.
  rewrite strip_no_space; [exact H|].
  apply lower_exit_no_space. now apply is_exit_true.
Qed.

(** *** UTF-8 *)

(** Setting the marker bits of a lead or continuation octet is an addition:
    the marker and the value bits share no position.  Checked on every
    marker and every value that fits beside it. *)
Lemma lor_lead (hi x : Z) :
  In (hi, x) (list_prod [128; 192] (map Z.of_nat (seq 0 64)) ++
              list_prod [224; 240] (map Z.of_nat (seq 0 16))) ->
  Z.lor hi x = hi + x.
Proof.
  intros H.
  assert (A : forallb (fun p => Z.lor (fst p) (snd p) =? fst p + snd p)
               (list_prod [128; 192] (map Z.of_nat (seq 0 64)) ++
                list_prod [224; 240] (map Z.of_nat (seq 0 16))) = true)
    by (vm_compute; reflexivity).
  rewrite forallb_forall in A. apply Z.eqb_eq. exact (A (hi, x) H).
Qed.

Lemma below_in_seq (x n : Z) (k : nat) :
  0 <= x < n -> n = Z.of_nat k -> In x (map Z.of_nat (seq 0 k)).
Proof.
  intros H ->. apply in_map_iff. exists (Z.to_nat x). split; [lia|].
  apply in_seq. lia.
Qed.

Lemma lor_128 x : 0 <= x < 64 -> Z.lor 128 x = 128 + x.
Proof.
  intros H. apply lor_lead, in_or_app. left. apply in_prod; [now left|].
  now apply (below_in_seq x 64 64).
Qed.
Lemma lor_192 x : 0 <= x < 64 -> Z.lor 192 x = 192 + x.
Proof.
  intros H. apply lor_lead, in_or_app. left. apply in_prod; [right; now left|].
  now apply (below_in_seq x 64 64).
Qed.
Lemma lor_224 x : 0 <= x < 16 -> Z.lor 224 x = 224 + x.
Proof.
  intros H. apply lor_lead, in_or_app. right. apply in_prod; [now left|].
  now apply (below_in_seq x 16 16).
Qed.
Lemma lor_240 x : 0 <= x < 16 -> Z.lor 240 x = 240 + x.
Proof.
  intros H. apply lor_lead, in_or_app. right. apply in_prod; [right; now left|].
  now apply (below_in_seq x 16 16).
Qed.

Lemma land_63 x : Z.land x 63 = x mod 64.
Proof. change 63 with (Z.ones 6). now rewrite Z.land_ones by lia. Qed.

Lemma shiftr_div x n : 0 <= n -> Z.shiftr x n = x / 2 ^ n.
Proof. apply Z.shiftr_div_pow2. Qed.

Lemma scalar_ok (lo c : Z) (s : option str) :
  lo <= c < 1114112 -> ~ (55296 <= c <= 57343) ->
  scalar lo c s = option_map (cons c) s.
Proof.
  intros H S. unfold scalar. destruct s as [s'|]; [|reflexivity].
  rewrite (proj2 (Z.leb_le lo c)), (proj2 (Z.ltb_lt c 1114112)) by lia.
  destruct (Z.leb_spec 55296 c); destruct (Z.leb_spec c 57343);
    simpl; try reflexivity; lia.
Qed.

Ltac decide_cmp :=
  repeat match goal with
         | |- context [?a <=? ?b] =>
             first [ rewrite (proj2 (Z.leb_le a b)) by lia
                   | rewrite (proj2 (Z.leb_gt a b)) by lia ]
         | |- context [?a <? ?b] =>
             first [ rewrite (proj2 (Z.ltb_lt a b)) by lia
                   | rewrite (proj2 (Z.ltb_ge a b)) by lia ]
         end.

Lemma decode_2 (q r : Z) (rest : bytes) :
  2 <= q < 32 -> 0 <= r < 64 ->
  decode_utf8 (192 + q :: 128 + r :: rest) =
  option_map (cons (64 * q + r)) (decode_utf8 rest).
Proof.
  intros Hq Hr. cbn [decode_utf8]. unfold continuation.
  decide_cmp. cbn [andb].
  rewrite <- (scalar_ok 128) by lia. f_equal. lia.
Qed.

Lemma decode_3 (q r1 r2 : Z) (rest : bytes) :
  0 <= q < 16 -> 0 <= r1 < 64 -> 0 <= r2 < 64 ->
  2048 <= 4096 * q + 64 * r1 + r2 ->
  ~ (55296 <= 4096 * q + 64 * r1 + r2 <= 57343) ->
  decode_utf8 (224 + q :: 128 + r1 :: 128 + r2 :: rest) =
  option_map (cons (4096 * q + 64 * r1 + r2)) (decode_utf8 rest).
Proof.
  intros Hq H1 H2 Hlo Hs. cbn [decode_utf8]. unfold continuation.
  decide_cmp. cbn [andb].
  rewrite <- (scalar_ok 2048) by lia. f_equal. lia.
Qed.

Lemma decode_4 (q r1 r2 r3 : Z) (rest : bytes) :
  0 <= q < 8 -> 0 <= r1 < 64 -> 0 <= r2 < 64 -> 0 <= r3 < 64 ->
  65536 <= 262144 * q + 4096 * r1 + 64 * r2 + r3 < 1114112 ->
  decode_utf8 (240 + q :: 128 + r1 :: 128 + r2 :: 128 + r3 :: rest) =
  option_map (cons (262144 * q + 4096 * r1 + 64 * r2 + r3))
    (decode_utf8 rest).
Proof.
  intros Hq H1 H2 H3 Hc. cbn [decode_utf8]. unfold continuation.
  decide_cmp. cbn [andb].
  rewrite <- (scalar_ok 65536) by lia. f_equal. lia.
Qed.

Ltac euclid a b q r :=
  pose proof (Z.div_mod a b ltac:(lia));
  pose proof (Z.mod_pos_bound a b ltac:(lia));
  set (q := a / b) in *; set (r := a mod b) in *; clearbody q r.

Ltac to_arith :=
  rewrite ?land_63, ?shiftr_div by lia;
  change (2 ^ 6) with 64; change (2 ^ 12) with 4096;
  change (2 ^ 18) with 262144.

Lemma some_eq {A} (a b : A) : Some a = Some b -> a = b.
Proof. congruence. Qed.

(** The octets of one code point read back as that code point. *)
Lemma utf8_char_decode (c : Z) (b rest : bytes) :
  utf8_char c = Some b ->
  decode_utf8 (b ++ rest) = option_map (cons c) (decode_utf8 rest).
Proof.
  unfold utf8_char.
  destruct (Z.ltb_spec c 0); [discriminate|].
  destruct (Z.ltb_spec c 128).
  { intros E; apply some_eq in E; subst b. cbn [app decode_utf8].
    decide_cmp. cbn [andb]. apply scalar_ok; lia. }
  destruct (Z.ltb_spec c 2048).
  { intros E; apply some_eq in E; subst b. to_arith.
    euclid c 64 q r.
    rewrite lor_192, lor_128 by lia. cbn [app].
    rewrite decode_2 by lia. now replace (64 * q + r) with c by lia. }
  destruct (Z.ltb_spec c 65536).
  { destruct (Z.leb_spec 55296 c); destruct (Z.leb_spec c 57343);
      cbn [andb]; try discriminate;
      (intros E; apply some_eq in E; subst b; to_arith;
       euclid c 64 m r2; euclid m 64 m' r1; euclid c 4096 q t;
       rewrite lor_224, !lor_128 by lia; cbn [app];
       rewrite decode_3 by lia;
       now replace (4096 * q + 64 * r1 + r2) with c by lia). }
  destruct (Z.ltb_spec c 1114112); [|discriminate].
  intros E; apply some_eq in E; subst b. to_arith.
  euclid c 64 m r3. euclid m 64 m' r2.
  euclid c 4096 n t. euclid n 64 n' r1. euclid c 262144 q u.
  rewrite lor_240, !lor_128 by lia. cbn [app].
  rewrite decode_4 by lia.
  now replace (262144 * q + 4096 * r1 + 64 * r2 + r3) with c by lia.
Qed.

(** Whatever [encode_utf8] produces, the strict reader turns back into the
    string it came from. *)
Theorem decode_encode (s : str) (bs : bytes) :
  encode_utf8 s = Some bs -> decode_utf8 bs = Some s.
Proof.
  revert bs. induction s as [|c s IH]; intros bs; cbn [encode_utf8].
  - intros E; apply some_eq in E; subst bs. reflexivity.
  - destruct (utf8_char c) as [b|] eqn:C; [|discriminate].
    destruct (encode_utf8 s) as [bs'|]; [|discriminate].
    intros E; apply some_eq in E; subst bs.
    rewrite (utf8_char_decode c b bs' C), (IH bs' eq_refl). reflexivity.
Qed.

(** [encode_utf8] is defined exactly on the strings of Unicode scalar
    values. *)
Lemma utf8_char_defined (c : Z) :
  utf8_char c = None <-> is_scalar c = false.
Proof.
  unfold utf8_char, is_scalar.
  destruct (Z.ltb_spec c 0); destruct (Z.leb_spec 0 c); try lia;
    cbn [andb]; [now split|].
  destruct (Z.ltb_spec c 1114112);
    destruct (Z.leb_spec 55296 c); destruct (Z.leb_spec c 57343);
    destruct (Z.ltb_spec c 128); destruct (Z.ltb_spec c 2048);
    destruct (Z.ltb_spec c 65536); try lia; cbn [andb negb];
    split; congruence.
Qed.

Lemma encode_utf8_defined (msg : str) :
  encode_utf8 msg = None <-> forallb is_scalar msg = false.
Proof.
  induction msg as [|c msg IH]; cbn [encode_utf8 forallb].
  - split; discriminate.
  - rewrite andb_false_iff, <- IH, <- utf8_char_defined.
    destruct (utf8_char c), (encode_utf8 msg); split;
      try congruence; try tauto; intros [Q|Q]; discriminate.
Qed.

(** *** Decimal numerals *)

Lemma digits_value (fuel : nat) (n : Z) (acc : str) :
  0 <= n < 2 ^ Z.of_nat fuel ->
  fold_left (fun a d => 10 * a + (d - 48)) (digits fuel n acc) 0 =
  fold_left (fun a d => 10 * a + (d - 48)) acc n /\
  (forallb is_digit acc = true -> forallb is_digit (digits fuel n acc) = true).
Proof.
  revert n acc. induction fuel as [|fuel IH]; intros n acc H.
  - change (2 ^ Z.of_nat 0) with 1 in H. assert (n = 0) by lia. subst n.
    now split.
  - cbn [digits].
    pose proof (Z.div_mod n 10 ltac:(lia)).
    pose proof (Z.mod_pos_bound n 10 ltac:(lia)).
    assert (D : is_digit (48 + n mod 10) = true).
    { unfold is_digit. apply andb_true_iff. split; apply Z.leb_le; lia. }
    destruct (Z.ltb_spec n 10).
    + cbn [fold_left forallb]. rewrite D. split; [|now intros ->].
      f_equal. rewrite Z.mod_small by lia. lia.
    + assert (B : 0 <= n / 10 < 2 ^ Z.of_nat fuel).
      { rewrite Nat2Z.inj_succ, Z.pow_succ_r in H by lia.
        split; [apply Z.div_pos; lia|].
        apply Z.div_lt_upper_bound; lia. }
      destruct (IH (n / 10) ((48 + n mod 10) :: acc) B) as [V G].
      split.
      * rewrite V. cbn [fold_left]. f_equal. lia.
      * intros A. apply G. cbn [forallb]. now rewrite D, A.
Qed.

(** For an int that is not negative [str_of_int] writes decimal digits
    only, and they spell that int. *)
Lemma str_of_int_value (n : Z) :
  0 <= n ->
  int_of_digits (str_of_int n) = n /\ forallb is_digit (str_of_int n) = true.
Proof.
  intros H. unfold str_of_int, int_of_digits.
  rewrite (proj2 (Z.ltb_ge n 0)) by lia.
  assert (B : 0 <= n < 2 ^ Z.of_nat (S (Z.to_nat (Z.log2 n)))).
  { split; [lia|]. rewrite Nat2Z.inj_succ, Z2Nat.id by apply Z.log2_nonneg.
    destruct (Z.eq_dec n 0) as [->|]; [reflexivity|].
    apply Z.log2_spec. lia. }
  destruct (digits_value _ n [] B) as [V G]. split; [exact V|now apply G].
Qed.

(** ** One pass through the loop body *)

Ltac run_script :=
  unfold loop_body, connect_to_server, try_except, bind, encode, print, call,
    ret, raise;
  cbn [stdin_reply sendall_reply socket_reply connect_reply fst snd app].

Section LoopBody.

Variable connection : sock.

Lemma loop_body_exit (msg : str) (r : reply unit) :
  is_exit msg = true ->
  loop_body connection (Turn (Return msg) r) =
  ([Prompt prompt_text; Print exit_notice; Close connection],
   Return (Break ClosedNormal)).
Proof.
  intros H. run_script.
  change (str_eqb (lower msg) (lit "exit")) with (is_exit msg).
  rewrite H. reflexivity.
Qed.

Lemma loop_body_send (msg : str) (payload : bytes) (r : reply unit) :
  is_exit msg = false -> encode_utf8 msg = Some payload ->
  loop_body connection (Turn (Return msg) r) =
  match r with
  | Return _ =>
      ([Prompt prompt_text; Sendall connection payload], Return Continue)
  | Raise (SocketError text) =>
      ([Prompt prompt_text; Sendall connection payload;
        Print (send_error_prefix ++ text)], Return (Break ClosedError))
  | Raise KeyboardInterrupt =>
      ([Prompt prompt_text; Sendall connection payload; Print interrupt_notice],
       Return (Break ClosedInterrupted))
  | Raise (OtherError name) =>
      ([Prompt prompt_text; Sendall connection payload],
       Raise (OtherError name))
  end.
Proof.
  intros H E. run_script.
  change (str_eqb (lower msg) (lit "exit")) with (is_exit msg).
  rewrite H, E. destruct r as [[]|[text| |name]]; reflexivity.
Qed.

Lemma loop_body_unencodable (msg : str) (r : reply unit) :
  is_exit msg = false -> encode_utf8 msg = None ->
  loop_body connection (Turn (Return msg) r) =
  ([Prompt prompt_text], Raise (OtherError (lit "UnicodeEncodeError"))).
Proof.
  intros H E. run_script.
  change (str_eqb (lower msg) (lit "exit")) with (is_exit msg).
  rewrite H, E. reflexivity.
Qed.

Lemma loop_body_input_raises (e : exn) (r : reply unit) :
  loop_body connection (Turn (Raise e) r) =
  match e with
  | SocketError text =>
      ([Prompt prompt_text; Print (send_error_prefix ++ text)],
       Return (Break ClosedError))
  | KeyboardInterrupt =>
      ([Prompt prompt_text; Print interrupt_notice],
       Return (Break ClosedInterrupted))
  | OtherError name => ([Prompt prompt_text], Raise (OtherError name))
  end.
Proof. destruct e; reflexivity. Qed.

Lemma loop_body_forwards (t : turn) (payload : bytes) :
  forwards t = Some payload ->
  loop_body connection t =
  ([Prompt prompt_text; Sendall connection payload], Return Continue).
Proof.
  destruct t as [[msg|e] [u|e']]; unfold forwards; simpl; try discriminate.
  destruct (is_exit msg) eqn:H; [discriminate|]. intros E.
  now rewrite (loop_body_send msg payload _ H E).
Qed.

Lemma loop_body_interrupted (t : turn) :
  interrupted t = true ->
  exists l, loop_body connection t =
            (Prompt prompt_text :: l ++ [Print interrupt_notice],
             Return (Break ClosedInterrupted)) /\
            printed l = [] /\ count is_close l = 0%nat.
Proof.
  destruct t as [[msg|e] r]; unfold interrupted; simpl.
  - destruct r as [u|[text| |name]]; try discriminate.
    destruct (is_exit msg) eqn:H; simpl; [discriminate|].
    destruct (encode_utf8 msg) as [payload|] eqn:E; [|discriminate].
    intros _. exists [Sendall connection payload].
    now rewrite (loop_body_send msg payload _ H E).
  - destruct e; try discriminate. intros _. exists [].
    now rewrite loop_body_input_raises.
Qed.

(** ** The whole loop *)

Lemma run_loop_forwarded (turns rest : list turn) :
  forallb forwarded turns = true ->
  run_loop connection (turns ++ rest) =
  (forwarding_log connection turns ++ fst (run_loop connection rest),
   snd (run_loop connection rest)).
Proof.
  induction turns as [|t turns IH]; intros H.
  - simpl. now destruct (run_loop connection rest).
  - simpl in H. apply andb_true_iff in H. destruct H as [Ht H].
    unfold forwarded in Ht.
    destruct (forwards t) as [payload|] eqn:F; [|discriminate].
    change ((t :: turns) ++ rest) with (t :: (turns ++ rest)).
    cbn [run_loop]. rewrite (loop_body_forwards t payload F), (IH H).
    unfold forwarding_log. cbn [flat_map]. rewrite F. reflexivity.
Qed.

Lemma run_loop_break (t : turn) (rest : list turn) (l : log) (s : state) :
  loop_body connection t = (l, Return (Break s)) ->
  run_loop connection (t :: rest) = (l, s).
Proof. intros H. cbn [run_loop]. now rewrite H. Qed.

End LoopBody.

(** ** Facts about logs *)

Lemma count_app (p : effect -> bool) (l l' : log) :
  count p (l ++ l') = (count p l + count p l')%nat.
Proof. unfold count. now rewrite filter_app, length_app. Qed.

Lemma printed_app (l l' : log) : printed (l ++ l') = printed l ++ printed l'.
Proof.
  induction l as [|e l IH]; [reflexivity|].
  destruct e; simpl; now rewrite IH.
Qed.

Lemma sent_app (l l' : log) : sent (l ++ l') = sent l ++ sent l'.
Proof.
  induction l as [|e l IH]; [reflexivity|].
  destruct e; simpl; now rewrite IH.
Qed.

Lemma forwarding_log_quiet (connection : sock) (turns : list turn) :
  printed (forwarding_log connection turns) = [] /\
  count is_close (forwarding_log connection turns) = 0%nat /\
  count is_new_socket (forwarding_log connection turns) = 0%nat.
Proof.
  induction turns as [|t turns [IH1 [IH2 IH3]]]; [now simpl|].
  unfold forwarding_log in *. cbn [flat_map].
  rewrite printed_app, !count_app, IH1, IH2, IH3.
  now destruct (forwards t).
Qed.

(** ** The exit keyword *)

(** C1, as worded, fails: the script lower-cases the line but never trims
    it.  The line " exit" trims and lower-cases to "exit", yet the script
    sends its five octets to the peer, prints no notice, makes no close call
    and goes back to its prompt. *)
Lemma untrimmed_exit_is_forwarded :
  trimmed_is_exit (lit " exit") = true /\
  run_loop conn0 [line " exit"] =
  ([Prompt prompt_text; Sendall conn0 [32; 101; 120; 105; 116];
    Prompt prompt_text],
   AwaitingInput).
Proof. split; reflexivity. Qed.

(** C1 (amended): for every operator input line whose lower-cased value,
    taken without trimming, equals "exit", the loop prints the exit notice
    "Exiting...", makes the close call on the connection and ends in state
    Closed-Normal, whatever number of lines were forwarded before it and
    whatever the environment holds in store after it. *)
Theorem exit_keyword_closes (connection : sock) (turns : list turn)
    (msg : str) (r : reply unit) (rest : list turn) :
  forallb forwarded turns = true ->
  lower msg = lit "exit" ->
  run_loop connection (turns ++ Turn (Return msg) r :: rest) =
  (forwarding_log connection turns ++
     [Prompt prompt_text; Print (lit "Exiting..."); Close connection],
   ClosedNormal).
Proof.
  intros Hturns Hexit. apply is_exit_true in Hexit.
  rewrite (run_loop_forwarded connection turns _ Hturns).
  rewrite (run_loop_break connection _ rest _ _
             (loop_body_exit connection msg r Hexit)).
  reflexivity.
Qed.

Lemma exit_keyword_closes_witness :
  run_loop conn0 ([line "hello"] ++ line "ExIt" :: [line "ignored"]) =
  (forwarding_log conn0 [line "hello"] ++
     [Prompt prompt_text; Print (lit "Exiting..."); Close conn0],
   ClosedNormal).
Proof.
  apply (exit_keyword_closes conn0 [line "hello"] (lit "ExIt") (Return tt)
           [line "ignored"]); reflexivity.
Defined.

(** ** Forwarding a line *)

(** C2, as worded, fails: not every line has a UTF-8 encoding.  A line
    that holds a lone surrogate is not the exit keyword, yet nothing of it
    is transmitted: [msg.encode] raises, no handler catches it, [sendall]
    is never called and the loop does not return to its prompt. *)
Lemma surrogate_line_is_not_sent :
  lower [104; 105; 56448] <> lit "exit" /\
  run_loop conn0 [Turn (Return [104; 105; 56448]) (Return tt)] =
  ([Prompt prompt_text], Unhandled (OtherError (lit "UnicodeEncodeError"))) /\
  sent (fst (run_loop conn0 [Turn (Return [104; 105; 56448]) (Return tt)])) =
    [].
Proof. split; [discriminate|split; reflexivity]. Qed.

(** C2 (amended): for every line that is not the exit keyword and whose
    code points are all Unicode scalar values (no lone surrogate), the line
    has a UTF-8 encoding and a pass of the loop whose [sendall] returns
    hands exactly those octets to [sendall], once, with nothing added; the
    loop is then back at its prompt: what follows is the loop run afresh on
    the rest of the environment, and with no further input the program sits
    in AwaitingInput.  The octets are the UTF-8 form of the line in that a
    strict UTF-8 reader gets the line back from them. *)
Theorem line_is_sent_as_utf8 (connection : sock) (turns : list turn)
    (msg : str) (rest : list turn) :
  forallb forwarded turns = true ->
  lower msg <> lit "exit" ->
  forallb is_scalar msg = true ->
  exists payload,
    encode_utf8 msg = Some payload /\
    run_loop connection (turns ++ Turn (Return msg) (Return tt) :: rest) =
    (forwarding_log connection turns ++
       [Prompt prompt_text; Sendall connection payload] ++
       fst (run_loop connection rest),
     snd (run_loop connection rest)) /\
    run_loop connection (turns ++ [Turn (Return msg) (Return tt)]) =
    (forwarding_log connection turns ++
       [Prompt prompt_text; Sendall connection payload; Prompt prompt_text],
     AwaitingInput) /\
    sent (fst (run_loop connection [Turn (Return msg) (Return tt)])) =
      [payload] /\
    decode_utf8 payload = Some msg.
Proof.
  intros Hturns Hexit Hscalar. apply is_exit_false in Hexit.
  destruct (encode_utf8 msg) as [payload|] eqn:Henc;
    [|apply encode_utf8_defined in Henc; congruence].
  exists payload.
  assert (F : forwards (Turn (Return msg) (Return tt)) = Some payload).
  { unfold forwards. cbn [stdin_reply sendall_reply]. now rewrite Hexit. }
  assert (G : forall rest',
             run_loop connection (Turn (Return msg) (Return tt) :: rest') =
             ([Prompt prompt_text; Sendall connection payload] ++
                fst (run_loop connection rest'),
              snd (run_loop connection rest'))).
  { intros rest'. cbn [run_loop].
    rewrite (loop_body_forwards connection _ payload F).
    now destruct (run_loop connection rest'). }
  split; [reflexivity|]. repeat split.
  - rewrite (run_loop_forwarded connection turns _ Hturns), G. reflexivity.
  - rewrite (run_loop_forwarded connection turns _ Hturns), G. reflexivity.
  - rewrite G. reflexivity.
  - now apply decode_encode.
Qed.

Lemma line_is_sent_as_utf8_witness :
  run_loop conn0
    ([line "hi"] ++ [Turn (Return [233; 8364; 128512]) (Return tt)]) =
  (forwarding_log conn0 [line "hi"] ++
     [Prompt prompt_text;
      Sendall conn0 [195; 169; 226; 130; 172; 240; 159; 152; 128];
      Prompt prompt_text],
   AwaitingInput).
Proof.
  destruct (line_is_sent_as_utf8 conn0 [line "hi"] [233; 8364; 128512] []
              eq_refl ltac:(discriminate) eq_refl)
    as [payload [E [_ [R _]]]].
  vm_compute in E. apply some_eq in E. subst payload. exact R.
Defined.

(** ** The ways the loop ends *)

Lemma transmission_error_inv (t : turn) (text : str) :
  transmission_error t = Some text ->
  exists msg payload,
    t = Turn (Return msg) (Raise (SocketError text)) /\
    is_exit msg = false /\ encode_utf8 msg = Some payload.
Proof.
  destruct t as [[msg|e] [u|[text'| |name]]]; unfold transmission_error;
    simpl; try discriminate.
  destruct (is_exit msg) eqn:X; [discriminate|].
  destruct (encode_utf8 msg) as [payload|] eqn:E; [|discriminate].
  intros H; injection H as ->. now exists msg, payload.
Qed.

(** C3, as worded, fails: when the loop ends on an interrupt or on a send
    error no close call is made. *)
Lemma loop_can_end_without_close :
  run_loop conn0 [Turn (Raise KeyboardInterrupt) (Return tt)] =
  ([Prompt prompt_text; Print interrupt_notice], ClosedInterrupted) /\
  run_loop conn0
    [Turn (Return (lit "hi")) (Raise (SocketError (lit "Broken pipe")))] =
  ([Prompt prompt_text; Sendall conn0 [104; 105];
    Print (lit "Error receiving data: Broken pipe")], ClosedError) /\
  count is_close [Prompt prompt_text; Print interrupt_notice] = 0%nat /\
  count is_close
    [Prompt prompt_text; Sendall conn0 [104; 105];
     Print (lit "Error receiving data: Broken pipe")] = 0%nat.
Proof. repeat split. Qed.

(** C3 (amended): on each of the three ending paths -- exit keyword,
    transmission error, interrupt -- the loop terminates: it reaches the
    matching Closed state and reads nothing of what the environment still
    holds.  On the exit-keyword path the close call is made, once. *)
Theorem loop_terminates_on_each_path (connection : sock) (turns : list turn)
    (t : turn) (rest : list turn) :
  forallb forwarded turns = true ->
  ends_loop t = true ->
  snd (run_loop connection (turns ++ t :: rest)) =
    (if exit_keyword t then ClosedNormal
     else match transmission_error t with
          | Some _ => ClosedError
          | None => ClosedInterrupted
          end) /\
  run_loop connection (turns ++ t :: rest) =
    run_loop connection (turns ++ [t]) /\
  (exit_keyword t = true ->
   count is_close (fst (run_loop connection (turns ++ t :: rest))) = 1%nat).
Proof.
  intros Hturns Hend.
  rewrite !(run_loop_forwarded connection turns _ Hturns).
  destruct (forwarding_log_quiet connection turns) as [_ [Hq _]].
  unfold ends_loop in Hend.
  destruct (exit_keyword t) eqn:X.
  - destruct t as [[msg|e] r]; unfold exit_keyword in X; simpl in X;
      [|discriminate].
    rewrite !(run_loop_break connection _ _ _ _
                (loop_body_exit connection msg r X)).
    cbn [fst snd]. rewrite count_app, Hq. repeat split.
  - destruct (transmission_error t) as [text|] eqn:T.
    + destruct (transmission_error_inv t text T) as [msg [payload [-> [H E]]]].
      pose proof (loop_body_send connection msg payload
                    (Raise (SocketError text)) H E) as B.
      cbn iota in B.
      rewrite !(run_loop_break connection _ _ _ _ B).
      repeat split. discriminate.
    + simpl in Hend.
      destruct (loop_body_interrupted connection t Hend) as [l [B _]].
      rewrite !(run_loop_break connection _ _ _ _ B).
      repeat split. discriminate.
Qed.

Lemma loop_terminates_on_each_path_witness :
  snd (run_loop conn0 ([line "hello"] ++ line "EXIT" :: [line "late"])) =
    ClosedNormal /\
  run_loop conn0 ([line "hello"] ++ line "EXIT" :: [line "late"]) =
    run_loop conn0 ([line "hello"] ++ [line "EXIT"]) /\
  count is_close
    (fst (run_loop conn0 ([line "hello"] ++ line "EXIT" :: [line "late"]))) =
  1%nat.
Proof.
  destruct (loop_terminates_on_each_path conn0 [line "hello"] (line "EXIT")
              [line "late"] eq_refl eq_refl) as [A [B C]].
  split; [exact A | split; [exact B | exact (C eq_refl)]].
Defined.

(** ** A failed send *)

(** C4: when [sendall] raises a socket error the program prints one line
    that contains the text of the error, ends in state Closed-Error and
    makes no close call. *)
Theorem send_error_ends_loop (connection : sock) (turns : list turn)
    (msg : str) (payload : bytes) (text : str) (rest : list turn) :
  forallb forwarded turns = true ->
  lower msg <> lit "exit" ->
  encode_utf8 msg = Some payload ->
  exists diagnostic,
    run_loop connection
      (turns ++ Turn (Return msg) (Raise (SocketError text)) :: rest) =
    (forwarding_log connection turns ++
       [Prompt prompt_text; Sendall connection payload; Print diagnostic],
     ClosedError) /\
    containsb text diagnostic = true /\
    count is_close
      (forwarding_log connection turns ++
         [Prompt prompt_text; Sendall connection payload; Print diagnostic]) =
    0%nat.
Proof.
  intros Hturns Hexit Henc. apply is_exit_false in Hexit.
  exists (send_error_prefix ++ text).
  rewrite (run_loop_forwarded connection turns _ Hturns).
  pose proof (loop_body_send connection msg payload
                (Raise (SocketError text)) Hexit Henc) as B.
  cbn iota in B. rewrite (run_loop_break connection _ _ _ _ B).
  destruct (forwarding_log_quiet connection turns) as [_ [Hq _]].
  rewrite count_app, Hq. repeat split. apply containsb_suffix.
Qed.

Lemma send_error_ends_loop_witness :
  exists diagnostic,
    run_loop conn0
      ([line "one"] ++
       Turn (Return (lit "two")) (Raise (SocketError (lit "Broken pipe")))
       :: [line "three"]) =
    (forwarding_log conn0 [line "one"] ++
       [Prompt prompt_text; Sendall conn0 [116; 119; 111]; Print diagnostic],
     ClosedError) /\
    containsb (lit "Broken pipe") diagnostic = true /\
    count is_close
      (forwarding_log conn0 [line "one"] ++
         [Prompt prompt_text; Sendall conn0 [116; 119; 111];
          Print diagnostic]) =
    0%nat.
Proof.
  apply (send_error_ends_loop conn0 [line "one"] (lit "two") [116; 119; 111]
           (lit "Broken pipe") [line "three"]);
    [reflexivity | discriminate | reflexivity].
Defined.

(** C9: the line printed for a failed send is the literal
    "Error receiving data: " followed by the text of the error, and that
    literal makes no mention of sending, in any letter case. *)
Theorem send_error_says_receiving (connection : sock) (turns : list turn)
    (msg : str) (payload : bytes) (text : str) (rest : list turn) :
  forallb forwarded turns = true ->
  lower msg <> lit "exit" ->
  encode_utf8 msg = Some payload ->
  printed
    (fst (run_loop connection
            (turns ++ Turn (Return msg) (Raise (SocketError text)) :: rest))) =
  [lit "Error receiving data: " ++ text] /\
  containsb (lit "send") (lower (lit "Error receiving data: ")) = false.
Proof.
  intros Hturns Hexit Henc. apply is_exit_false in Hexit.
  rewrite (run_loop_forwarded connection turns _ Hturns).
  pose proof (loop_body_send connection msg payload
                (Raise (SocketError text)) Hexit Henc) as B.
  cbn iota in B. rewrite (run_loop_break connection _ _ _ _ B).
  destruct (forwarding_log_quiet connection turns) as [Hq _].
  cbn [fst]. rewrite printed_app, Hq. split; reflexivity.
Qed.

Lemma send_error_says_receiving_witness :
  printed
    (fst (run_loop conn0
            ([line "one"] ++
             Turn (Return (lit "two")) (Raise (SocketError (lit "Broken pipe")))
             :: []))) =
  [lit "Error receiving data: " ++ lit "Broken pipe"].
Proof.
  apply (send_error_says_receiving conn0 [line "one"] (lit "two")
           [116; 119; 111] (lit "Broken pipe") []);
    [reflexivity | discriminate | reflexivity].
Defined.

(** ** An interrupt *)

(** C5: an interrupt that arrives while the loop is blocked in [input] or
    in [sendall] makes the program print the notice "Interrupted by user,
    closing connection." (and nothing else), end the loop in state
    Closed-Interrupted, which is not an unhandled fault, and make no close
    call. *)
Theorem interrupt_ends_loop (connection : sock) (turns : list turn)
    (t : turn) (rest : list turn) :
  forallb forwarded turns = true ->
  interrupted t = true ->
  printed (fst (run_loop connection (turns ++ t :: rest))) =
    [lit "Interrupted by user, closing connection."] /\
  snd (run_loop connection (turns ++ t :: rest)) = ClosedInterrupted /\
  (forall e, snd (run_loop connection (turns ++ t :: rest)) <> Unhandled e) /\
  count is_close (fst (run_loop connection (turns ++ t :: rest))) = 0%nat.
Proof.
  intros Hturns Hint.
  rewrite (run_loop_forwarded connection turns _ Hturns).
  destruct (loop_body_interrupted connection t Hint) as [l [B [Hp Hc]]].
  rewrite (run_loop_break connection _ _ _ _ B).
  destruct (forwarding_log_quiet connection turns) as [Hq [Hq' _]].
  cbn [fst snd]. repeat split.
  - rewrite printed_app, Hq. cbn [app printed].
    rewrite printed_app, Hp. reflexivity.
  - discriminate.
  - rewrite count_app, Hq'.
    change (Prompt prompt_text :: l ++ [Print interrupt_notice])
      with ([Prompt prompt_text] ++ l ++ [Print interrupt_notice]).
    rewrite !count_app, Hc. reflexivity.
Qed.

Lemma interrupt_ends_loop_witness :
  (printed
     (fst (run_loop conn0
             ([line "one"] ++
              Turn (Return (lit "two")) (Raise KeyboardInterrupt) :: []))) =
   [lit "Interrupted by user, closing connection."]) /\
  (snd (run_loop conn0
          ([line "one"] ++ Turn (Raise KeyboardInterrupt) (Return tt) :: [])) =
   ClosedInterrupted).
Proof.
  split.
  - apply (interrupt_ends_loop conn0 [line "one"]
             (Turn (Return (lit "two")) (Raise KeyboardInterrupt)) []);
      reflexivity.
  - apply (interrupt_ends_loop conn0 [line "one"]
             (Turn (Raise KeyboardInterrupt) (Return tt)) []);
      reflexivity.
Defined.

(** ** Connecting *)

Lemma connect_to_server_cases (host : option str) (port : option Z)
    (env : connect_env) :
  let h := host_or_default host in
  let p := port_or_default port in
  connect_to_server host port env =
  match connect_raises env with
  | None =>
      ([NewSocket; Connect h p;
        Print (lit "Connected to " ++ h ++ lit ":" ++ str_of_int p)],
       Return (Some (Sock h p)))
  | Some (SocketError text) =>
      (attempt_log h p env ++
         [Print (lit "Error connecting to server: " ++ text)],
       Return None)
  | Some e => (attempt_log h p env, Raise e)
  end.
Proof.
  destruct env as [[u|e] [u'|e']]; destruct host, port;
    unfold connect_raises, attempt_log; run_script;
    try destruct e; try destruct e'; reflexivity.
Qed.

(** C8: the parameters default to "localhost" and 8080, and whenever the
    socket is created and the connect call returns, connect_to_server prints
    "Connected to {host}:{port}" for exactly the host and port it connected
    to and returns the socket, on which no close call has been made. *)
Theorem connect_success (host : option str) (port : option Z)
    (env : connect_env) :
  connect_raises env = None ->
  connect_to_server host port env =
  ([NewSocket;
    Connect (host_or_default host) (port_or_default port);
    Print (lit "Connected to " ++ host_or_default host ++ lit ":" ++
           str_of_int (port_or_default port))],
   Return (Some (Sock (host_or_default host) (port_or_default port)))) /\
  connect_to_server None None env =
  ([NewSocket; Connect (lit "localhost") 8080;
    Print (lit "Connected to localhost:8080")],
   Return (Some (Sock (lit "localhost") 8080))).
Proof.
  intros H. rewrite !connect_to_server_cases, H. split; reflexivity.
Qed.

Lemma connect_success_witness :
  connect_to_server (Some (lit "example.org")) (Some 7) reachable =
  ([NewSocket; Connect (lit "example.org") 7;
    Print (lit "Connected to example.org:7")],
   Return (Some (Sock (lit "example.org") 7))).
Proof.
  apply (connect_success (Some (lit "example.org")) (Some 7) reachable).
  reflexivity.
Defined.

(** C6: whatever the host and port, a socket error raised by the creation
    of the socket or by the connect call is caught: connect_to_server prints
    one line that contains the text of the error and returns None; the
    program then ends without entering the loop -- no prompt, nothing sent,
    no close call, whatever the operator had to say -- and without an
    unhandled exception. *)
Theorem connect_failure_is_caught (host : option str) (port : option Z)
    (env : connect_env) (text : str) (script : list turn) :
  connect_raises env = Some (SocketError text) ->
  (exists diagnostic,
     printed (fst (connect_to_server host port env)) = [diagnostic] /\
     containsb text diagnostic = true) /\
  snd (connect_to_server host port env) = Return None /\
  main env script = (fst (connect_to_server None None env), NotConnected) /\
  count is_prompt (fst (main env script)) = 0%nat /\
  sent (fst (main env script)) = [] /\
  count is_close (fst (main env script)) = 0%nat.
Proof.
  intros H. unfold main. rewrite !connect_to_server_cases, H. cbn [fst snd].
  split; [|repeat split].
  - exists (lit "Error connecting to server: " ++ text). split.
    + rewrite printed_app. unfold attempt_log.
      now destruct (socket_reply env).
    + apply containsb_suffix.
  - rewrite count_app. unfold attempt_log. now destruct (socket_reply env).
  - rewrite sent_app. unfold attempt_log. now destruct (socket_reply env).
  - rewrite count_app. unfold attempt_log. now destruct (socket_reply env).
Qed.

Lemma connect_failure_is_caught_witness :
  main refused [line "hello"] =
  (fst (connect_to_server None None refused), NotConnected).
Proof.
  apply (connect_failure_is_caught None None refused
           (lit "[Errno 111] Connection refused") [line "hello"]).
  reflexivity.
Defined.

(** C10: connect_to_server catches socket errors only.  Any other exception
    met in the connect phase -- an interrupt above all -- leaves the function
    and then the program, which dies of it having printed nothing. *)
Theorem connect_interrupt_is_unhandled (host : option str) (port : option Z)
    (env : connect_env) (e : exn) (script : list turn) :
  connect_raises env = Some e ->
  e = KeyboardInterrupt \/ (exists name, e = OtherError name) ->
  snd (connect_to_server host port env) = Raise e /\
  printed (fst (connect_to_server host port env)) = [] /\
  snd (main env script) = Unhandled e /\
  printed (fst (main env script)) = [].
Proof.
  intros H He. unfold main. rewrite !connect_to_server_cases, H.
  assert (Q : forall h p, printed (attempt_log h p env) = []).
  { intros h p. unfold attempt_log. now destruct (socket_reply env). }
  destruct He as [->|[name ->]]; cbn [fst snd]; rewrite !Q; now repeat split.
Qed.

Lemma connect_interrupt_is_unhandled_witness :
  snd (main (ConnectEnv (Return tt) (Raise KeyboardInterrupt)) [line "hello"]) =
    Unhandled KeyboardInterrupt /\
  printed
    (fst (main (ConnectEnv (Return tt) (Raise KeyboardInterrupt))
            [line "hello"])) = [].
Proof.
  destruct (connect_interrupt_is_unhandled None None
              (ConnectEnv (Return tt) (Raise KeyboardInterrupt))
              KeyboardInterrupt [line "hello"] eq_refl (or_introl eq_refl))
    as [_ [_ [A B]]].
  split; [exact A | exact B].
Defined.

(** ** The life of the connection *)

Lemma loop_body_closes (connection : sock) (t : turn) :
  count is_new_socket (fst (loop_body connection t)) = 0%nat /\
  count is_close (fst (loop_body connection t)) =
  match snd (loop_body connection t) with
  | Return (Break s) => closes_expected s
  | _ => 0%nat
  end.
Proof.
  destruct t as [[msg|e] r].
  - destruct (is_exit msg) eqn:X.
    + rewrite (loop_body_exit connection msg r X). now split.
    + destruct (encode_utf8 msg) as [payload|] eqn:E.
      * rewrite (loop_body_send connection msg payload r X E).
        destruct r as [u|[text| |name]]; now split.
      * rewrite (loop_body_unencodable connection msg r X E). now split.
  - rewrite loop_body_input_raises. destruct e; now split.
Qed.

Lemma run_loop_closes (connection : sock) (script : list turn) :
  count is_new_socket (fst (run_loop connection script)) = 0%nat /\
  count is_close (fst (run_loop connection script)) =
  closes_expected (snd (run_loop connection script)).
Proof.
  induction script as [|t script [IH1 IH2]]; [now split|].
  cbn [run_loop].
  destruct (loop_body_closes connection t) as [B1 B2].
  destruct (loop_body connection t) as [l [[|s]|e]]; cbn [fst snd] in *.
  - destruct (run_loop connection script) as [l' s']; cbn [fst snd] in *.
    rewrite !count_app, B1, B2, IH1, IH2. now split.
  - now split.
  - now split.
Qed.

Lemma main_closes (env : connect_env) (script : list turn) :
  count is_close (fst (main env script)) =
  closes_expected (snd (main env script)).
Proof.
  unfold main. rewrite connect_to_server_cases.
  assert (Q : forall h p, count is_close (attempt_log h p env) = 0%nat).
  { intros h p. unfold attempt_log. now destruct (socket_reply env). }
  destruct (connect_raises env) as [[text| |name]|]; cbn [fst snd];
    rewrite ?count_app, ?Q; try reflexivity.
  destruct (run_loop_closes
              (Sock (host_or_default None) (port_or_default None)) script)
    as [_ H].
  destruct (run_loop _ script) as [l s]; cbn [fst snd] in *.
  rewrite count_app, H. reflexivity.
Qed.

(** C7, as worded, fails: a run that ends on its first send error makes no
    close call at all. *)
Lemma send_error_run_never_closes :
  main reachable
    [line "one";
     Turn (Return (lit "two")) (Raise (SocketError (lit "Broken pipe")))] =
  ([NewSocket; Connect (lit "localhost") 8080;
    Print (lit "Connected to localhost:8080");
    Prompt prompt_text; Sendall conn0 [111; 110; 101];
    Prompt prompt_text; Sendall conn0 [116; 119; 111];
    Print (lit "Error receiving data: Broken pipe")],
   ClosedError) /\
  count is_close
    (fst (main reachable
            [line "one";
             Turn (Return (lit "two"))
               (Raise (SocketError (lit "Broken pipe")))])) = 0%nat.
Proof. split; reflexivity. Qed.

(** C7 (amended): in every run the socket is created by the first action of
    the program and by no later one, the close call is made at most once,
    never twice, and a run that ends on the exit keyword has made it exactly
    once. *)
Theorem connection_created_once_closed_at_most_once (env : connect_env)
    (script : list turn) :
  (exists l, fst (main env script) = NewSocket :: l /\
             count is_new_socket l = 0%nat) /\
  (count is_close (fst (main env script)) <= 1)%nat /\
  (snd (main env script) = ClosedNormal ->
   count is_close (fst (main env script)) = 1%nat).
Proof.
  split; [|split].
  - unfold main. rewrite connect_to_server_cases.
    destruct (connect_raises env) as [[text| |name]|] eqn:R; cbn [fst snd];
      unfold attempt_log.
    + destruct (socket_reply env); eexists; split; reflexivity.
    + destruct (socket_reply env); eexists; split; reflexivity.
    + destruct (socket_reply env); eexists; split; reflexivity.
    + destruct (run_loop_closes
                  (Sock (host_or_default None) (port_or_default None)) script)
        as [H _].
      destruct (run_loop _ script) as [l s]; cbn [fst snd] in *.
      match goal with
      | |- exists l0, ?a ++ l = _ :: l0 /\ _ => exists (tl a ++ l)
      end.
      split; [reflexivity|]. rewrite count_app, H. reflexivity.
  - rewrite main_closes. destruct (snd (main env script)); simpl; lia.
  - intros H. rewrite main_closes, H. reflexivity.
Qed.

Lemma connection_created_once_closed_at_most_once_witness :
  count is_close (fst (main reachable [line "one"; line "exit"])) = 1%nat.
Proof.
  apply (connection_created_once_closed_at_most_once reachable
           [line "one"; line "exit"]).
  reflexivity.
Defined.

(** * Further properties of the script *)

(** ** Every way a pass through the loop body can go *)

Ltac body_cases connection t :=
  let msg := fresh "msg" in
  let e := fresh "e" in
  let r := fresh "r" in
  let X := fresh "X" in
  let E := fresh "E" in
  let payload := fresh "payload" in
  destruct t as [[msg|e] r];
  [ destruct (is_exit msg) eqn:X;
    [ rewrite ?(loop_body_exit connection msg r X)
    | destruct (encode_utf8 msg) as [payload|] eqn:E;
      [ rewrite ?(loop_body_send connection msg payload r X E);
        destruct r as [[]|[?text| |?name]]
      | rewrite ?(loop_body_unencodable connection msg r X E) ] ]
  | rewrite ?loop_body_input_raises; destruct e as [?text| |?name] ].

Lemma loop_body_continue_iff (connection : sock) (t : turn) :
  snd (loop_body connection t) = Return Continue <-> forwarded t = true.
Proof.
  unfold forwarded, forwards.
  body_cases connection t;
    repeat match goal with r : reply unit |- _ => destruct r end;
    cbn [stdin_reply sendall_reply fst snd];
    repeat match goal with H : _ = _ |- _ => rewrite H end;
    split; congruence.
Qed.

Lemma run_loop_starts_with_prompt (connection : sock) (script : list turn) :
  exists l, fst (run_loop connection script) = Prompt prompt_text :: l.
Proof.
  destruct script as [|t script]; [now exists []|].
  cbn [run_loop].
  body_cases connection t;
    try destruct (run_loop connection script); cbn [fst app];
    eexists; reflexivity.
Qed.

(** ** The spellings of the exit keyword *)

Lemma lower_char_letter (a k : Z) :
  97 <= k <= 122 -> lower_char a = k <-> a = k - 32 \/ a = k.
Proof.
  intros Hk. unfold lower_char.
  destruct (Z.leb_spec 65 a); destruct (Z.leb_spec a 90); cbn [andb]; lia.
Qed.

Lemma is_exit_spelling (msg : str) :
  is_exit msg = true <-> exit_spelling msg = true.
Proof.
  rewrite is_exit_true. unfold lower.
  change (lit "exit") with [101; 120; 105; 116].
  destruct msg as [|a [|b [|c [|d [|x msg]]]]]; cbn [map exit_spelling];
    try (split; discriminate).
  rewrite !andb_true_iff, !orb_true_iff, !Z.eqb_eq.
  pose proof (lower_char_letter a 101 ltac:(lia)).
  pose proof (lower_char_letter b 120 ltac:(lia)).
  pose proof (lower_char_letter c 105 ltac:(lia)).
  pose proof (lower_char_letter d 116 ltac:(lia)).
  split.
  - intros Q. injection Q as Qa Qb Qc Qd. tauto.
  - intros [[[Qa Qb] Qc] Qd]. f_equal; [|f_equal; [|f_equal; [|f_equal]]];
      tauto.
Qed.

(** X1: one pass of the loop ends in Closed-Normal exactly when the line
    read is one of the sixteen spellings of e-x-i-t in upper or lower case:
    four code points, no more, no fewer, no space around them. *)
Theorem exit_exactly_on_its_spellings (connection : sock) (msg : str)
    (r : reply unit) :
  snd (run_loop connection [Turn (Return msg) r]) = ClosedNormal <->
  exit_spelling msg = true.
Proof.
  rewrite <- is_exit_spelling. cbn [run_loop].
  destruct (is_exit msg) eqn:X.
  - rewrite (loop_body_exit connection msg r X). now split.
  - destruct (encode_utf8 msg) as [payload|] eqn:E.
    + rewrite (loop_body_send connection msg payload r X E).
      destruct r as [[]|[text| |name]]; cbn [fst snd]; split; discriminate.
    + rewrite (loop_body_unencodable connection msg r X E).
      split; discriminate.
Qed.

(** ** How long the loop goes on *)

(** X2: the loop is still at its prompt after a script exactly when every
    turn of the script forwarded its line: the line was not the exit
    keyword, had an encoding, and [sendall] returned.  Nothing else keeps
    the loop going and nothing else stops it. *)
Theorem loop_goes_on_iff_all_forwarded (connection : sock)
    (script : list turn) :
  snd (run_loop connection script) = AwaitingInput <->
  forallb forwarded script = true.
Proof.
  induction script as [|t script IH]; [now split|].
  cbn [run_loop forallb]. rewrite andb_true_iff, <- IH.
  rewrite <- (loop_body_continue_iff connection t).
  destruct (loop_body connection t) as [l [[|s]|e]] eqn:B; cbn [fst snd].
  - destruct (run_loop connection script) as [l' s']. cbn [snd]. tauto.
  - split; [|intros [Q _]; discriminate].
    intros ->. exfalso. revert B. clear.
    body_cases connection t; discriminate.
  - split; [discriminate|intros [Q _]; discriminate].
Qed.

(** ** The stream the peer receives *)

Lemma encode_utf8_app (a b : str) :
  encode_utf8 (a ++ b) =
  match encode_utf8 a, encode_utf8 b with
  | Some x, Some y => Some (x ++ y)
  | _, _ => None
  end.
Proof.
  induction a as [|c a IH]; cbn [app encode_utf8].
  - now destruct (encode_utf8 b).
  - rewrite IH.
    destruct (utf8_char c), (encode_utf8 a), (encode_utf8 b);
      try reflexivity.
    now rewrite app_assoc.
Qed.

(** X3: the script frames nothing.  When the operator types a series of
    lines, none of them the exit keyword, and every send succeeds, the
    octets handed to [sendall], laid end to end, are the UTF-8 encoding of
    the lines laid end to end: a peer that decodes what it received reads
    the lines as one unbroken text, and the loop is at its prompt. *)
Theorem session_is_one_unframed_stream (connection : sock)
    (msgs : list str) (stream : bytes) :
  Forall (fun m => lower m <> lit "exit") msgs ->
  encode_utf8 (List.concat msgs) = Some stream ->
  List.concat (sent (fst (run_loop connection (typed msgs)))) = stream /\
  decode_utf8 (List.concat (sent (fst (run_loop connection (typed msgs))))) =
    Some (List.concat msgs) /\
  snd (run_loop connection (typed msgs)) = AwaitingInput.
Proof.
  intros Hmsgs Henc.
  assert (Q : List.concat (sent (fst (run_loop connection (typed msgs)))) =
              stream /\
              snd (run_loop connection (typed msgs)) = AwaitingInput).
  { revert stream Henc.
    induction Hmsgs as [|m msgs Hm Hmsgs IH]; intros stream Henc.
    - cbn in Henc. apply some_eq in Henc. now subst stream.
    - cbn [List.concat] in Henc. rewrite encode_utf8_app in Henc.
      destruct (encode_utf8 m) as [x|] eqn:Ex; [|discriminate].
      destruct (encode_utf8 (List.concat msgs)) as [y|] eqn:Ey; [|discriminate].
      apply some_eq in Henc. subst stream.
      destruct (IH y eq_refl) as [IH1 IH2].
      apply is_exit_false in Hm.
      cbn [typed map run_loop].
      rewrite (loop_body_send connection m x (Return tt) Hm Ex).
      fold (typed msgs).
      destruct (run_loop connection (typed msgs)) as [l s].
      cbn [fst snd] in *. cbn [app sent List.concat]. now rewrite IH1. }
  destruct Q as [Q1 Q2]. repeat split; [exact Q1| |exact Q2].
  rewrite Q1. now apply decode_encode.
Qed.

Lemma session_is_one_unframed_stream_witness :
  List.concat (sent (fst (run_loop conn0 (typed [lit "ab"; lit "c"])))) =
    [97; 98; 99] /\
  List.concat (sent (fst (run_loop conn0 (typed [lit "a"; lit "bc"])))) =
    [97; 98; 99].
Proof.
  split.
  - apply (session_is_one_unframed_stream conn0 [lit "ab"; lit "c"]
             [97; 98; 99]); [|reflexivity].
    repeat constructor; discriminate.
  - apply (session_is_one_unframed_stream conn0 [lit "a"; lit "bc"]
             [97; 98; 99]); [|reflexivity].
    repeat constructor; discriminate.
Defined.

(** ** Exceptions that no handler of the loop names *)

(** X4: an exception of any class other than socket.error and
    KeyboardInterrupt -- EOFError when standard input ends, say -- raised by
    [input] or by [sendall] is caught by neither handler: the program dies
    of it, with no line printed by the loop and no close call. *)
Theorem other_exception_ends_program (connection : sock)
    (turns : list turn) (t : turn) (name : str) (rest : list turn) :
  forallb forwarded turns = true ->
  escapes t = Some name ->
  snd (run_loop connection (turns ++ t :: rest)) =
    Unhandled (OtherError name) /\
  printed (fst (run_loop connection (turns ++ t :: rest))) = [] /\
  count is_close (fst (run_loop connection (turns ++ t :: rest))) = 0%nat.
Proof.
  intros Hturns Hesc.
  rewrite (run_loop_forwarded connection turns _ Hturns).
  destruct (forwarding_log_quiet connection turns) as [Hp [Hc _]].
  cbn [fst snd]. rewrite printed_app, count_app, Hp, Hc.
  cbn [run_loop]. unfold escapes in Hesc.
  destruct t as [[msg|e] r]; cbn [stdin_reply sendall_reply] in Hesc.
  - destruct r as [u|[text| |name']]; try discriminate.
    destruct (is_exit msg) eqn:X; [discriminate|].
    destruct (encode_utf8 msg) as [payload|] eqn:E; [|discriminate].
    apply some_eq in Hesc. subst name'.
    rewrite (loop_body_send connection msg payload _ X E).
    now repeat split.
  - destruct e as [text| |name']; try discriminate.
    apply some_eq in Hesc. subst name'.
    rewrite loop_body_input_raises. now repeat split.
Qed.

Lemma other_exception_ends_program_witness :
  snd (run_loop conn0
         ([line "one"] ++
          Turn (Raise (OtherError (lit "EOFError"))) (Return tt) :: [])) =
  Unhandled (OtherError (lit "EOFError")).
Proof.
  apply (other_exception_ends_program conn0 [line "one"]
           (Turn (Raise (OtherError (lit "EOFError"))) (Return tt))
           (lit "EOFError") []); reflexivity.
Defined.

Lemma exit_spelling_scalar (msg : str) :
  exit_spelling msg = true -> forallb is_scalar msg = true.
Proof.
  destruct msg as [|a [|b [|c [|d [|x msg]]]]]; cbn [exit_spelling];
    try discriminate.
  rewrite !andb_true_iff, !orb_true_iff, !Z.eqb_eq.
  intros [[[[-> | ->] [-> | ->]] [-> | ->]] [-> | ->]]; reflexivity.
Qed.

(** X5: a line that holds a code point with no UTF-8 encoding -- a lone
    surrogate, as standard input yields under the surrogateescape error
    handler -- is never the exit keyword and cannot be encoded: the pass
    ends in an unhandled UnicodeEncodeError after the prompt, with nothing
    handed to [sendall], nothing printed and no close call.  Every other
    line has an encoding. *)
Theorem unencodable_line_ends_program (connection : sock)
    (turns : list turn) (msg : str) (r : reply unit) (rest : list turn) :
  forallb forwarded turns = true ->
  forallb is_scalar msg = false ->
  run_loop connection (turns ++ Turn (Return msg) r :: rest) =
  (forwarding_log connection turns ++ [Prompt prompt_text],
   Unhandled (OtherError (lit "UnicodeEncodeError"))).
Proof.
  intros Hturns Hmsg.
  rewrite (run_loop_forwarded connection turns _ Hturns).
  assert (X : is_exit msg = false).
  { destruct (is_exit msg) eqn:X; [|reflexivity].
    apply is_exit_spelling, exit_spelling_scalar in X. congruence. }
  apply encode_utf8_defined in Hmsg.
  cbn [run_loop].
  rewrite (loop_body_unencodable connection msg r X Hmsg). reflexivity.
Qed.

Lemma unencodable_line_ends_program_witness :
  run_loop conn0
    ([line "one"] ++ Turn (Return [104; 56448]) (Return tt) :: []) =
  (forwarding_log conn0 [line "one"] ++ [Prompt prompt_text],
   Unhandled (OtherError (lit "UnicodeEncodeError"))).
Proof.
  apply (unencodable_line_ends_program conn0 [line "one"] [104; 56448]
           (Return tt) []); reflexivity.
Defined.

(** X6: the first handler of the loop guards the whole try block, and
    socket.error is OSError: an OSError raised by [input] itself is reported
    with the same "Error receiving data: " line as a failed send, and ends
    the loop in Closed-Error with nothing sent in that pass and no close
    call. *)
Theorem input_oserror_is_reported_like_a_failed_send (connection : sock)
    (turns : list turn) (text : str) (r : reply unit) (rest : list turn) :
  forallb forwarded turns = true ->
  run_loop connection (turns ++ Turn (Raise (SocketError text)) r :: rest) =
  (forwarding_log connection turns ++
     [Prompt prompt_text; Print (lit "Error receiving data: " ++ text)],
   ClosedError).
Proof.
  intros Hturns.
  rewrite (run_loop_forwarded connection turns _ Hturns).
  cbn [run_loop]. rewrite loop_body_input_raises. reflexivity.
Qed.

Lemma input_oserror_is_reported_like_a_failed_send_witness :
  run_loop conn0
    ([line "one"] ++
     Turn (Raise (SocketError (lit "[Errno 9] Bad file descriptor")))
       (Return tt) :: []) =
  (forwarding_log conn0 [line "one"] ++
     [Prompt prompt_text;
      Print (lit "Error receiving data: " ++
             lit "[Errno 9] Bad file descriptor")],
   ClosedError).
Proof.
  apply (input_oserror_is_reported_like_a_failed_send conn0 [line "one"]
           (lit "[Errno 9] Bad file descriptor") (Return tt) []).
  reflexivity.
Defined.

(** ** The close call comes last *)

Lemma app_close_split (a b l0 l1 : log) (c : sock) :
  count is_close a = 0%nat ->
  a ++ b = l0 ++ Close c :: l1 ->
  exists l0', l0 = a ++ l0' /\ b = l0' ++ Close c :: l1.
Proof.
  revert l0. induction a as [|x a IH]; intros l0 Hc H.
  - now exists l0.
  - unfold count in Hc. cbn [filter] in Hc.
    destruct (is_close x) eqn:Hx; [discriminate|].
    destruct l0 as [|y l0]; cbn [app] in H.
    + injection H as -> _. discriminate.
    + injection H as -> H. destruct (IH l0 Hc H) as [l0' [-> ->]].
      now exists l0'.
Qed.

Lemma no_close_in (a l0 l1 : log) (c : sock) :
  count is_close a = 0%nat -> a <> l0 ++ Close c :: l1.
Proof.
  intros Hc H. rewrite <- (app_nil_r a) in H.
  destruct (app_close_split a [] l0 l1 c Hc H) as [l0' [_ Q]].
  now destruct l0'.
Qed.

(** X7: in every run of the loop a close call, if there is one, is the last
    thing the loop does and it is made on the connection the loop was
    given: nothing is sent, prompted or printed after the socket is closed,
    and the run has ended in Closed-Normal. *)
Theorem nothing_follows_close (connection : sock) (script : list turn)
    (before after : log) (closed : sock) :
  fst (run_loop connection script) = before ++ Close closed :: after ->
  after = [] /\ closed = connection /\
  snd (run_loop connection script) = ClosedNormal.
Proof.
  revert before. induction script as [|t script IH]; intros before H.
  - cbn in H. now apply no_close_in in H.
  - cbn [run_loop] in *. revert H.
    body_cases connection t; cbn [fst snd];
      try (intros H; now apply no_close_in in H).
    + intros H.
      destruct (app_close_split [Prompt prompt_text; Print exit_notice]
                  [Close connection] before after closed eq_refl H)
        as [l0' [_ Q]].
      destruct l0' as [|y l0']; cbn [app] in Q.
      * injection Q as -> ->. now repeat split.
      * injection Q as _ Q. now destruct l0'.
    + destruct (run_loop connection script) as [l s]. cbn [fst snd] in *.
      intros H.
      destruct (app_close_split
                  [Prompt prompt_text; Sendall connection payload]
                  l before after closed eq_refl H) as [l0' [_ Q]].
      exact (IH l0' Q).
Qed.

Lemma nothing_follows_close_witness :
  snd (run_loop conn0 [line "one"; line "exit"; line "late"]) = ClosedNormal.
Proof.
  apply (nothing_follows_close conn0 [line "one"; line "exit"; line "late"]
           [Prompt prompt_text; Sendall conn0 [111; 110; 101];
            Prompt prompt_text; Print exit_notice]
           [] conn0).
  reflexivity.
Defined.

(** ** What is printed, by the way the loop ends *)

(** X8: over its whole life the loop prints at most one line, and which
    one is fixed by the way it ends: the exit notice in Closed-Normal, the
    interrupt notice in Closed-Interrupted, one "Error receiving data: "
    line in Closed-Error, and nothing at all while it goes on or when it
    dies of an unhandled exception.  Forwarding a line prints nothing. *)
Theorem loop_output_by_ending (connection : sock) (script : list turn) :
  match snd (run_loop connection script) with
  | ClosedNormal =>
      printed (fst (run_loop connection script)) = [lit "Exiting..."]
  | ClosedInterrupted =>
      printed (fst (run_loop connection script)) =
      [lit "Interrupted by user, closing connection."]
  | ClosedError =>
      exists text,
        printed (fst (run_loop connection script)) =
        [lit "Error receiving data: " ++ text]
  | _ => printed (fst (run_loop connection script)) = []
  end.
Proof.
  induction script as [|t script IH]; [reflexivity|].
  cbn [run_loop].
  body_cases connection t; cbn [fst snd]; try reflexivity;
    try (eexists; reflexivity).
  destruct (run_loop connection script) as [l s]. cbn [fst snd] in *.
  exact IH.
Qed.

(** ** Only what was typed is sent *)

(** X9: whatever the environment does, every payload the loop hands to
    [sendall] is the UTF-8 encoding of a line that [input] returned in that
    run and that is not the exit keyword: the script sends nothing of its
    own, and never the keyword. *)
Theorem only_typed_lines_are_sent (connection : sock) (script : list turn)
    (payload : bytes) :
  In payload (sent (fst (run_loop connection script))) ->
  exists msg,
    In msg (lines_read script) /\
    lower msg <> lit "exit" /\
    encode_utf8 msg = Some payload.
Proof.
  induction script as [|t script IH]; [intros []|].
  cbn [run_loop lines_read flat_map]. fold (lines_read script).
  body_cases connection t; cbn [fst snd sent stdin_reply app In];
    try match goal with
        | |- False -> _ => intros []
        | |- _ \/ False -> _ =>
            intros [<-|[]]; exists msg; repeat split;
            [now left | now apply is_exit_false | assumption]
        end.
  destruct (run_loop connection script) as [l s]. cbn [fst snd sent] in *.
  intros [<-|H].
  - exists msg. repeat split;
      [now left | now apply is_exit_false | assumption].
  - destruct (IH H) as [m [Hm Q]]. exists m. split; [now right|exact Q].
Qed.

Lemma only_typed_lines_are_sent_witness :
  exists msg,
    In msg (lines_read [line "one"; line "two"]) /\
    lower msg <> lit "exit" /\
    encode_utf8 msg = Some [116; 119; 111].
Proof.
  apply (only_typed_lines_are_sent conn0 [line "one"; line "two"]
           [116; 119; 111]).
  right. left. reflexivity.
Defined.

(** ** The size and shape of a payload *)

Lemma utf8_char_octets (c : Z) (b : bytes) :
  utf8_char c = Some b ->
  forallb is_octet b = true /\ (1 <= List.length b <= 4)%nat.
Proof.
  unfold utf8_char, is_octet.
  destruct (Z.ltb_spec c 0); [discriminate|].
  destruct (Z.ltb_spec c 128).
  { intros E; apply some_eq in E; subst b. cbn [forallb List.length].
    decide_cmp. split; [reflexivity|lia]. }
  destruct (Z.ltb_spec c 2048).
  { intros E; apply some_eq in E; subst b. to_arith.
    euclid c 64 q r.
    rewrite lor_192, lor_128 by lia. cbn [forallb List.length].
    decide_cmp. split; [reflexivity|lia]. }
  destruct (Z.ltb_spec c 65536).
  { destruct (Z.leb_spec 55296 c); destruct (Z.leb_spec c 57343);
      cbn [andb]; try discriminate;
      (intros E; apply some_eq in E; subst b; to_arith;
       euclid c 64 m r2; euclid m 64 m' r1; euclid c 4096 q t;
       rewrite lor_224, !lor_128 by lia; cbn [forallb List.length];
       decide_cmp; split; [reflexivity|lia]). }
  destruct (Z.ltb_spec c 1114112); [|discriminate].
  intros E; apply some_eq in E; subst b. to_arith.
  euclid c 64 m r3. euclid m 64 m' r2.
  euclid c 4096 n t. euclid n 64 n' r1. euclid c 262144 q u.
  rewrite lor_240, !lor_128 by lia. cbn [forallb List.length].
  decide_cmp. split; [reflexivity|lia].
Qed.

(** X10: the payload of a line is a sequence of octets, at least one and at
    most four for every code point of the line; so an empty line, and only
    an empty line, gives an empty payload. *)
Theorem payload_octets_and_size (msg : str) (payload : bytes) :
  encode_utf8 msg = Some payload ->
  forallb is_octet payload = true /\
  (List.length msg <= List.length payload <= 4 * List.length msg)%nat /\
  (payload = [] <-> msg = []).
Proof.
  revert payload. induction msg as [|c msg IH]; intros payload;
    cbn [encode_utf8].
  - intros E; apply some_eq in E; subst payload. now repeat split.
  - destruct (utf8_char c) as [b|] eqn:C; [|discriminate].
    destruct (encode_utf8 msg) as [bs|]; [|discriminate].
    intros E; apply some_eq in E; subst payload.
    destruct (utf8_char_octets c b C) as [Ho Hl].
    destruct (IH bs eq_refl) as [IHo [IHl _]].
    rewrite forallb_app, length_app, Ho, IHo. cbn [List.length].
    repeat split; try lia; try discriminate.
    intros Q. apply (f_equal (@List.length Z)) in Q.
    rewrite length_app in Q. cbn [List.length] in Q. lia.
Qed.

Lemma payload_octets_and_size_witness :
  forallb is_octet [195; 169; 226; 130; 172] = true /\
  (List.length [233; 8364]%Z <= List.length [195; 169; 226; 130; 172]%Z
   <= 4 * List.length [233; 8364]%Z)%nat.
Proof.
  destruct (payload_octets_and_size [233; 8364] [195; 169; 226; 130; 172]
              eq_refl) as [A [B _]].
  split; [exact A|exact B].
Defined.

(** ** More on the connect phase *)

(** X11: the operator is prompted exactly when the connection was made:
    the loop is entered if neither the creation of the socket nor the
    connect call raised, and in no other case. *)
Theorem loop_entered_iff_connected (env : connect_env) (script : list turn) :
  In (Prompt prompt_text) (fst (main env script)) <->
  connect_raises env = None.
Proof.
  unfold main. rewrite connect_to_server_cases.
  destruct (connect_raises env) as [[text| |name]|] eqn:R; cbn [fst snd].
  - split; [|discriminate]. unfold attempt_log.
    destruct (socket_reply env); cbn; intuition discriminate.
  - split; [|discriminate]. unfold attempt_log.
    destruct (socket_reply env); cbn; intuition discriminate.
  - split; [|discriminate]. unfold attempt_log.
    destruct (socket_reply env); cbn; intuition discriminate.
  - split; [reflexivity|]. intros _.
    destruct (run_loop_starts_with_prompt
                (Sock (host_or_default None) (port_or_default None)) script)
      as [l H].
    destruct (run_loop _ script) as [l' s]. cbn [fst] in *. subst l'.
    apply in_or_app. right. now left.
Qed.

(** X12: when the creation of the socket raises, whatever the exception,
    the connect call is never made, by the function or by the program. *)
Theorem no_connect_without_socket (host : option str) (port : option Z)
    (env : connect_env) (e : exn) (script : list turn) :
  socket_reply env = Raise e ->
  count is_connect (fst (connect_to_server host port env)) = 0%nat /\
  count is_connect (fst (main env script)) = 0%nat.
Proof.
  intros H. unfold main. rewrite !connect_to_server_cases.
  unfold connect_raises, attempt_log. rewrite H.
  destruct e; now split.
Qed.

Lemma no_connect_without_socket_witness :
  count is_connect
    (fst (main (ConnectEnv (Raise (SocketError (lit "Too many open files")))
                  (Return tt)) [line "one"])) = 0%nat.
Proof.
  apply (no_connect_without_socket None None
           (ConnectEnv (Raise (SocketError (lit "Too many open files")))
              (Return tt))
           (SocketError (lit "Too many open files")) [line "one"]).
  reflexivity.
Defined.

(** X13: on success with a port that is not negative, the confirmation
    line ends, after the colon, in decimal digits that spell the port the
    function connected to. *)
Theorem confirmation_spells_the_port (host : option str) (port : option Z)
    (env : connect_env) :
  connect_raises env = None ->
  0 <= port_or_default port ->
  exists numeral,
    printed (fst (connect_to_server host port env)) =
    [lit "Connected to " ++ host_or_default host ++ lit ":" ++ numeral] /\
    forallb is_digit numeral = true /\
    int_of_digits numeral = port_or_default port.
Proof.
  intros H Hp. rewrite connect_to_server_cases, H.
  exists (str_of_int (port_or_default port)).
  destruct (str_of_int_value (port_or_default port) Hp) as [V D].
  now repeat split.
Qed.

Lemma confirmation_spells_the_port_witness :
  exists numeral,
    printed (fst (connect_to_server (Some (lit "example.org")) (Some 65535)
                    reachable)) =
    [lit "Connected to " ++ lit "example.org" ++ lit ":" ++ numeral] /\
    forallb is_digit numeral = true /\
    int_of_digits numeral = 65535.
Proof.
  apply (confirmation_spells_the_port (Some (lit "example.org")) (Some 65535)
           reachable); [reflexivity|discriminate].
Defined.

(** ** The one peer of the program *)

Lemma run_loop_targets (host : str) (port : Z) (script : list turn) :
  Forall (targets host port) (fst (run_loop (Sock host port) script)).
Proof.
  induction script as [|t script IH]; [repeat constructor|].
  cbn [run_loop].
  body_cases (Sock host port) t; cbn [fst snd];
    try (repeat constructor; fail).
  destruct (run_loop (Sock host port) script) as [l s]. cbn [fst] in *.
  apply Forall_app. split; [repeat constructor|exact IH].
Qed.

(** X14: the program as a whole deals with one peer only: whatever happens,
    every connect call is to localhost, port 8080, and every send and close
    is made on the socket connected to it. *)
Theorem program_talks_to_localhost_8080_only (env : connect_env)
    (script : list turn) :
  Forall (targets (lit "localhost") 8080) (fst (main env script)).
Proof.
  unfold main. rewrite connect_to_server_cases.
  destruct (connect_raises env) as [[text| |name]|]; cbn [fst snd];
    unfold attempt_log;
    try (destruct (socket_reply env); repeat constructor; fail).
  pose proof (run_loop_targets (lit "localhost") 8080 script) as H.
  change (host_or_default None) with (lit "localhost").
  change (port_or_default None) with 8080.
  destruct (run_loop _ script) as [l s]. cbn [fst] in *.
  apply Forall_app. split; [repeat constructor|exact H].
Qed.
